(** * Pikafish WASM adapter (src/wasm_api.cpp): model and properties

    The adapter class [PikafishWASM] wraps the engine behind a handful of
    host-facing member functions and two trampolines that the engine calls
    back.  The engine, the search limits and the progress record are declared
    in headers outside the adapter; they enter the model as an interface
    ([Engine.API]) so that every statement holds for any engine.

    Modelling choices:
    - member functions are computations in a state-and-exception monad over
      the adapter object; a C++ exception leaves the side effects made before
      the throw in place;
    - every call that leaves the adapter (into the engine, or into a host
      callback) is appended to a log together with the adapter object as it
      is at that moment, which is what the callee can observe;
    - the engine delivers progress and results by running the trampolines as
      steps of their own, between host calls;
    - integer arguments are [Z]: the adapter does no arithmetic on them, it
      hands them on, converts them to double, or prints them in decimal. *)

From Stdlib Require Import ZArith Floats.SpecFloat.
From stdpp Require Import base strings list gmap pretty.

Local Open Scope Z_scope.
Local Set Warnings "-register-all".

(** ** C++ exceptions and outcomes of calls *)

(** A thrown object either derives from [std::exception] or it does not; a
    handler [catch (const std::exception&)] tells the two apart. *)
Inductive exn : Type :=
| std_exception (what : string)
| foreign_exception (tag : string).

Inductive outcome (A : Type) : Type :=
| returns (a : A)
| throws (e : exn).
Arguments returns {A} a.
Arguments throws {A} e.

(** ** Host values (emscripten::val) *)

Inductive val : Type :=
| val_null
| val_undefined
| val_number (d : spec_float)
| val_string (s : string)
| val_function (handle : nat)
| val_object (props : list (string * val)).

(** [val::isNull()] *)
Definition isNull (v : val) : bool :=
  match v with
  | val_null => true
  | _ => false
  end.

(** IEEE-754 binary64, round to nearest even: the value of
    [static_cast<double>(n)] for an integer [n], and of an integer handed to
    the host as a number. *)
Definition static_cast_double (n : Z) : spec_float :=
  binary_normalize 53 1024 n 0 false.

(** The integer a double stands for, when it stands for one. *)
Definition double_to_Z (d : spec_float) : option Z :=
  match d with
  | S754_zero _ => Some 0
  | S754_finite s m e =>
      let v := if s then Zneg m else Zpos m in
      if 0 <=? e then Some (v * 2 ^ e)
      else if v mod 2 ^ (- e) =? 0 then Some (v / 2 ^ (- e)) else None
  | _ => None
  end.

Definition val_of_int (n : Z) : val := val_number (static_cast_double n).
Definition val_of_double (d : spec_float) : val := val_number d.

(** Property assignment on an own-property list: an existing key keeps its
    place and takes the new value, a new key goes to the end. *)
Fixpoint props_set (key : string) (v : val) (props : list (string * val))
  : list (string * val) :=
  match props with
  | [] => [(key, v)]
  | (k, old) :: rest =>
      if String.eqb k key then (k, v) :: rest
      else (k, old) :: props_set key v rest
  end.

(** [val::object()] and [val::set(key, v)] *)
Definition val_new_object : val := val_object [].

Definition val_set (key : string) (v : val) (o : val) : val :=
  match o with
  | val_object props => val_object (props_set key v props)
  | other => other
  end.


Fixpoint props_get (key : string) (props : list (string * val)) : option val :=
  match props with
  | [] => None
  | (k, v) :: rest => if String.eqb k key then Some v else props_get key rest
  end.

Definition val_get (key : string) (o : val) : option val :=
  match o with
  | val_object props => props_get key props
  | _ => None
  end.

(** The integer the host reads in a property: the property must be there,
    hold a number, and the number must stand for an integer. *)
Definition val_to_Z (v : val) : option Z :=
  match v with
  | val_number d => double_to_Z d
  | _ => None
  end.

Definition field_as_Z (key : string) (o : val) : option Z :=
  match val_get key o with
  | Some v => val_to_Z v
  | None => None
  end.

(** ** Declarations the adapter takes from the engine's headers *)

Module Search.
(** Modelled from the spec: [Search::LimitsType] is declared in search.h,
    which is not among the sources.  The fields are those the adapter
    assigns, which are the ones the spec lists for the limits descriptor:
    depth, node budget, wall-clock budget per side, infinite flag. *)
Record LimitsType : Type := mkLimitsType {
  time_WHITE : Z;
  time_BLACK : Z;
  depth : Z;
  nodes : Z;
  infinite : bool
}.

Definition set_time_WHITE (v : Z) (l : LimitsType) : LimitsType :=
  mkLimitsType v (time_BLACK l) (depth l) (nodes l) (infinite l).
Definition set_time_BLACK (v : Z) (l : LimitsType) : LimitsType :=
  mkLimitsType (time_WHITE l) v (depth l) (nodes l) (infinite l).
Definition set_depth (v : Z) (l : LimitsType) : LimitsType :=
  mkLimitsType (time_WHITE l) (time_BLACK l) v (nodes l) (infinite l).
Definition set_nodes (v : Z) (l : LimitsType) : LimitsType :=
  mkLimitsType (time_WHITE l) (time_BLACK l) (depth l) v (infinite l).
Definition set_infinite (v : bool) (l : LimitsType) : LimitsType :=
  mkLimitsType (time_WHITE l) (time_BLACK l) (depth l) (nodes l) v.
End Search.

(** Modelled from the spec: [Engine::InfoFull] is declared in engine.h, which
    is not among the sources.  The fields are the eight the update trampoline
    reads; [nodes], [nps] and [tbHits] are 64-bit unsigned counters. *)
Record InfoFull : Type := mkInfoFull {
  info_depth : Z;
  info_selDepth : Z;
  info_timeMs : Z;
  info_nodes : Z;
  info_score : Z;
  info_hashfull : Z;
  info_nps : Z;
  info_tbHits : Z
}.

Module Engine.
(** The member functions of [Engine] the adapter calls.  Each acts on the
    engine's state and either returns or throws; the state it leaves is
    kept in both cases.  [LimitsType_init] is the value of a
    default-constructed [Search::LimitsType].  [options_count] is
    [get_options().count(name)], a lookup that changes nothing;
    [options_assign] is [get_options()[name] = value]. *)
Class API (t : Type) : Type := {
  new : option string → outcome t;
  set_on_bestmove : t → t * outcome unit;
  set_on_update_full : t → t * outcome unit;
  load_networks : t → t * outcome unit;
  verify_networks : t → t * outcome unit;
  set_position : string → list string → t → t * outcome unit;
  go : Search.LimitsType → t → t * outcome unit;
  stop : t → t * outcome unit;
  wait_for_search_finished : t → t * outcome unit;
  fen : t → t * outcome string;
  visualize : t → t * outcome string;
  options_count : t → string → nat;
  options_assign : string → string → t → t * outcome unit;
  get_hashfull : t → t * outcome Z;
  search_clear : t → t * outcome unit;
  set_tt_size : Z → t → t * outcome unit;
  resize_threads : t → t * outcome unit;
  perft : string → Z → t → t * outcome Z;
  LimitsType_init : Search.LimitsType
}.
End Engine.

(** Calls that leave the adapter. *)
Inductive call : Type :=
| call_set_on_bestmove
| call_set_on_update_full
| call_load_networks
| call_verify_networks
| call_set_position (fen : string) (moves : list string)
| call_go (limits : Search.LimitsType)
| call_stop
| call_wait_for_search_finished
| call_fen
| call_visualize
| call_options_assign (name value : string)
| call_get_hashfull
| call_search_clear
| call_set_tt_size (mb : Z)
| call_resize_threads
| call_perft (fen : string) (depth : Z)
| call_host (callee : val) (args : list val).

(** ** The adapter object *)

Declare Scope M_scope.

Section Adapter.
Context {E : Type} {api : Engine.API E}.

(** The data members of [class PikafishWASM]. *)
Record PikafishWASM : Type := mkPikafishWASM {
  engine : E;
  lastBestMove : string;
  lastPonder : string;
  searching : bool;
  onUpdateCallback : val;
  onBestMoveCallback : val
}.

Definition set_engine (e : E) (o : PikafishWASM) : PikafishWASM :=
  mkPikafishWASM e (lastBestMove o) (lastPonder o) (searching o)
                 (onUpdateCallback o) (onBestMoveCallback o).
Definition set_lastBestMove (s : string) (o : PikafishWASM) : PikafishWASM :=
  mkPikafishWASM (engine o) s (lastPonder o) (searching o)
                 (onUpdateCallback o) (onBestMoveCallback o).
Definition set_lastPonder (s : string) (o : PikafishWASM) : PikafishWASM :=
  mkPikafishWASM (engine o) (lastBestMove o) s (searching o)
                 (onUpdateCallback o) (onBestMoveCallback o).
Definition set_searching (b : bool) (o : PikafishWASM) : PikafishWASM :=
  mkPikafishWASM (engine o) (lastBestMove o) (lastPonder o) b
                 (onUpdateCallback o) (onBestMoveCallback o).
Definition set_onUpdateCallback (v : val) (o : PikafishWASM) : PikafishWASM :=
  mkPikafishWASM (engine o) (lastBestMove o) (lastPonder o) (searching o)
                 v (onBestMoveCallback o).
Definition set_onBestMoveCallback (v : val) (o : PikafishWASM) : PikafishWASM :=
  mkPikafishWASM (engine o) (lastBestMove o) (lastPonder o) (searching o)
                 (onUpdateCallback o) v.

(** One entry of the log: the call, and the adapter object at the moment
    the call is made. *)
Record observed : Type := mkObserved {
  what : call;
  seen : PikafishWASM
}.

Record World : Type := mkWorld {
  self : PikafishWASM;
  log : list observed
}.

(** *** The monad of member functions *)

Definition M (A : Type) : Type := World → World * outcome A.

Definition M_ret {A} (a : A) : M A := λ w, (w, returns a).

Definition M_bind {A B} (m : M A) (k : A → M B) : M B :=
  λ w, match m w with
       | (w', returns a) => k a w'
       | (w', throws e) => (w', throws e)
       end.

Notation "x ← y ; z" := (M_bind y (λ x, z))
  (at level 20, y at level 100, z at level 200, only parsing) : M_scope.
Notation "x ;; z" := (M_bind x (λ _, z))
  (at level 100, z at level 200, only parsing, right associativity) : M_scope.
Local Open Scope M_scope.

Definition read {A} (f : PikafishWASM → A) : M A :=
  λ w, (w, returns (f (self w))).

Definition assign (f : PikafishWASM → PikafishWASM) : M unit :=
  λ w, (mkWorld (f (self w)) (log w), returns tt).

Definition emit (c : call) : M unit :=
  λ w, (mkWorld (self w) (log w ++ [mkObserved c (self w)]), returns tt).

(** The engine acts on its own state and answers. *)
Definition engine_act {R} (f : E → E * outcome R) : M R :=
  λ w, let '(e', r) := f (engine (self w)) in
       (mkWorld (set_engine e' (self w)) (log w), r).

(** [engine->f(...)]: log the call, then let the engine act. *)
Definition call_engine {R} (c : call) (f : E → E * outcome R) : M R :=
  emit c;; engine_act f.

(** [callee(args...)] on a host value.  What the callee does is the host's
    business: the call is logged with the object the callee can observe, and
    the caller goes on. *)
Definition call_val (callee : val) (args : list val) : M unit :=
  emit (call_host callee args).

(** [try { body } catch (const std::exception&) { handler }] *)
Definition try_catch_std_exception {A} (body : M A) (handler : M A) : M A :=
  λ w, match body w with
       | (w', throws (std_exception _)) => handler w'
       | r => r
       end.

(** *** Trampolines registered with the engine (constructor, lines 42-66) *)

Definition on_bestmove (best ponder : string) : M unit :=
  assign (set_lastBestMove best);;
  assign (set_lastPonder ponder);;
  assign (set_searching false);;
  cb ← read onBestMoveCallback;
  if negb (isNull cb) then
    b ← read lastBestMove;
    p ← read lastPonder;
    call_val cb [val_string b; val_string p]
  else M_ret tt.

Definition make_updateInfo (info : InfoFull) : val :=
  let updateInfo := val_new_object in
  let updateInfo := val_set "depth" (val_of_int (info_depth info)) updateInfo in
  let updateInfo := val_set "seldepth" (val_of_int (info_selDepth info)) updateInfo in
  let updateInfo := val_set "time" (val_of_int (info_timeMs info)) updateInfo in
  let updateInfo :=
    val_set "nodes" (val_of_double (static_cast_double (info_nodes info))) updateInfo in
  let updateInfo := val_set "score" (val_of_int (info_score info)) updateInfo in
  let updateInfo := val_set "hashfull" (val_of_int (info_hashfull info)) updateInfo in
  let updateInfo :=
    val_set "nps" (val_of_double (static_cast_double (info_nps info))) updateInfo in
  let updateInfo :=
    val_set "tbhits" (val_of_double (static_cast_double (info_tbHits info))) updateInfo in
  updateInfo.

Definition on_update_full (info : InfoFull) : M unit :=
  cb ← read onUpdateCallback;
  if negb (isNull cb) then
    call_val cb [make_updateInfo info]
  else M_ret tt.

(** *** Constructor and destructor *)

Definition PikafishWASM_ctor : outcome World :=
  match Engine.new None with
  | throws e => throws e
  | returns eng =>
      let w := mkWorld (mkPikafishWASM eng "" "" false val_null val_null) [] in
      match (call_engine call_set_on_bestmove Engine.set_on_bestmove;;
             call_engine call_set_on_update_full Engine.set_on_update_full) w with
      | (w', returns _) => returns w'
      | (_, throws e) => throws e
      end
  end.


(** *** Member functions *)

Definition init : M unit :=
  try_catch_std_exception
    (call_engine call_load_networks Engine.load_networks;;
     call_engine call_verify_networks Engine.verify_networks)
    (M_ret tt).

Definition setPosition (fen : string) : M unit :=
  let moves : list string := [] in
  call_engine (call_set_position fen moves) (Engine.set_position fen moves).

Definition setPositionWithMoves (fen : string) (moves : list string) : M unit :=
  call_engine (call_set_position fen moves) (Engine.set_position fen moves).

Definition goDepth (depth : Z) : M unit :=
  let limits := Engine.LimitsType_init in
  let limits := Search.set_depth depth limits in
  assign (set_searching true);;
  call_engine (call_go limits) (Engine.go limits).

Definition goTime (timeMs : Z) : M unit :=
  let limits := Engine.LimitsType_init in
  let limits := Search.set_time_WHITE timeMs limits in
  let limits := Search.set_time_BLACK timeMs limits in
  assign (set_searching true);;
  call_engine (call_go limits) (Engine.go limits).

Definition goNodes (nodes : Z) : M unit :=
  let limits := Engine.LimitsType_init in
  let limits := Search.set_nodes nodes limits in
  assign (set_searching true);;
  call_engine (call_go limits) (Engine.go limits).

Definition goInfinite : M unit :=
  let limits := Engine.LimitsType_init in
  let limits := Search.set_infinite true limits in
  assign (set_searching true);;
  call_engine (call_go limits) (Engine.go limits).

Definition stop : M unit :=
  s ← read searching;
  if s then call_engine call_stop Engine.stop else M_ret tt.

Definition waitForSearchFinished : M unit :=
  call_engine call_wait_for_search_finished Engine.wait_for_search_finished.

Definition getBestMove : M string := read lastBestMove.
Definition getPonderMove : M string := read lastPonder.
Definition isSearching : M bool := read searching.

Definition getFen : M string := call_engine call_fen Engine.fen.
Definition visualize : M string := call_engine call_visualize Engine.visualize.

Definition setOption (name value : string) : M unit :=
  n ← read (λ o, Engine.options_count (engine o) name);
  if negb (Nat.eqb n 0) then
    call_engine (call_options_assign name value) (Engine.options_assign name value)
  else M_ret tt.

Definition getHashFull : M Z := call_engine call_get_hashfull Engine.get_hashfull.
Definition clearHash : M unit := call_engine call_search_clear Engine.search_clear.
Definition setHashSize (mb : Z) : M unit :=
  call_engine (call_set_tt_size mb) (Engine.set_tt_size mb).

(** [std::to_string(int)] is the decimal form, which is what [pretty]
    gives on [Z]. *)
Definition setThreads (numThreads : Z) : M unit :=
  setOption "Threads" (pretty numThreads);;
  call_engine call_resize_threads Engine.resize_threads.

Definition setOnUpdate (callback : val) : M unit :=
  assign (set_onUpdateCallback callback).
Definition setOnBestMove (callback : val) : M unit :=
  assign (set_onBestMoveCallback callback).

Definition perft (fen : string) (depth : Z) : M Z :=
  call_engine (call_perft fen depth) (Engine.perft fen depth).

(** *** The adapter as a transition system

    The host calls the member functions bound in EMSCRIPTEN_BINDINGS; the
    engine runs the two trampolines.  A host call that throws leaves the
    object as it is at the throw. *)

Inductive ret : Type :=
| ret_void
| ret_string (s : string)
| ret_bool (b : bool)
| ret_number (z : Z).

Inductive op : Type :=
| op_init
| op_setPosition (fen : string)
| op_setPositionWithMoves (fen : string) (moves : list string)
| op_goDepth (depth : Z)
| op_goTime (timeMs : Z)
| op_goNodes (nodes : Z)
| op_goInfinite
| op_stop
| op_waitForSearchFinished
| op_getBestMove
| op_getPonderMove
| op_isSearching
| op_getFen
| op_visualize
| op_setOption (name value : string)
| op_getHashFull
| op_clearHash
| op_setHashSize (mb : Z)
| op_setThreads (numThreads : Z)
| op_setOnUpdate (callback : val)
| op_setOnBestMove (callback : val)
| op_perft (fen : string) (depth : Z).

Definition as_ret {A} (f : A → ret) (m : M A) : M ret :=
  a ← m; M_ret (f a).

Definition run_op (o : op) : M ret :=
  match o with
  | op_init => as_ret (λ _, ret_void) init
  | op_setPosition fen => as_ret (λ _, ret_void) (setPosition fen)
  | op_setPositionWithMoves fen moves =>
      as_ret (λ _, ret_void) (setPositionWithMoves fen moves)
  | op_goDepth depth => as_ret (λ _, ret_void) (goDepth depth)
  | op_goTime timeMs => as_ret (λ _, ret_void) (goTime timeMs)
  | op_goNodes nodes => as_ret (λ _, ret_void) (goNodes nodes)
  | op_goInfinite => as_ret (λ _, ret_void) goInfinite
  | op_stop => as_ret (λ _, ret_void) stop
  | op_waitForSearchFinished => as_ret (λ _, ret_void) waitForSearchFinished
  | op_getBestMove => as_ret ret_string getBestMove
  | op_getPonderMove => as_ret ret_string getPonderMove
  | op_isSearching => as_ret ret_bool isSearching
  | op_getFen => as_ret ret_string getFen
  | op_visualize => as_ret ret_string visualize
  | op_setOption name value => as_ret (λ _, ret_void) (setOption name value)
  | op_getHashFull => as_ret ret_number getHashFull
  | op_clearHash => as_ret (λ _, ret_void) clearHash
  | op_setHashSize mb => as_ret (λ _, ret_void) (setHashSize mb)
  | op_setThreads numThreads => as_ret (λ _, ret_void) (setThreads numThreads)
  | op_setOnUpdate callback => as_ret (λ _, ret_void) (setOnUpdate callback)
  | op_setOnBestMove callback => as_ret (λ _, ret_void) (setOnBestMove callback)
  | op_perft fen depth => as_ret ret_number (perft fen depth)
  end.

Inductive step : Type :=
| host_calls (o : op)
| engine_update (info : InfoFull)
| engine_bestmove (best ponder : string).

Definition run_step (s : step) (w : World) : World :=
  match s with
  | host_calls o => (run_op o w).1
  | engine_update info => (on_update_full info w).1
  | engine_bestmove best ponder => (on_bestmove best ponder w).1
  end.

Definition run (steps : list step) (w : World) : World :=
  foldl (λ w s, run_step s w) w steps.

Definition is_bestmove (s : step) : bool :=
  match s with
  | engine_bestmove _ _ => true
  | _ => false
  end.

Definition registers_onBestMove (s : step) : bool :=
  match s with
  | host_calls (op_setOnBestMove _) => true
  | _ => false
  end.

(** What a computation may do to the object: [keeps P m] says that [m]
    started on an object satisfying [P] leaves one satisfying [P], whether
    it returns or throws. *)
Definition keeps {A} (P : PikafishWASM → Prop) (m : M A) : Prop :=
  ∀ w, P (self w) → P (self (m w).1).

(** Properties that do not depend on the engine's state. *)
Definition engine_blind (P : PikafishWASM → Prop) : Prop :=
  ∀ e o, P o → P (set_engine e o).

(** The entries a computation adds to the log. *)
Definition logged {A} (m : M A) (w : World) : list observed :=
  drop (length (log w)) (log (m w).1).

(** The object the terminal trampoline leaves. *)
Definition after_bestmove (best ponder : string) (o : PikafishWASM)
  : PikafishWASM :=
  set_searching false (set_lastPonder ponder (set_lastBestMove best o)).

(** What every go* entry point does with the limits it has built: set the
    flag, then call the engine's [go] with them, and hand back whatever the
    engine answers. *)
Definition starts_search (m : M unit) (limits : Search.LimitsType) : Prop :=
  ∀ w,
    let armed := set_searching true (self w) in
    m w =
    (mkWorld (set_engine (Engine.go limits (engine (self w))).1 armed)
             (log w ++ [mkObserved (call_go limits) armed]),
     (Engine.go limits (engine (self w))).2).


(** *** What a history makes of the data members

    Each data member has few writers.  The functions below read off a list
    of steps what the member must hold afterwards; the theorems say the
    adapter agrees. *)

Definition is_go (o : op) : bool :=
  match o with
  | op_goDepth _ | op_goTime _ | op_goNodes _ | op_goInfinite => true
  | _ => false
  end.

(** [searching]: set by a go*, cleared by a delivered result. *)
Definition flag_step (b : bool) (s : step) : bool :=
  match s with
  | host_calls o => if is_go o then true else b
  | engine_update _ => b
  | engine_bestmove _ _ => false
  end.

Definition flag_after (steps : list step) (b : bool) : bool :=
  foldl flag_step b steps.

(** [lastBestMove], [lastPonder]: the last delivered result. *)
Definition moves_step (m : string * string) (s : step) : string * string :=
  match s with
  | engine_bestmove best ponder => (best, ponder)
  | _ => m
  end.

Definition moves_after (steps : list step) (m : string * string)
  : string * string :=
  foldl moves_step m steps.

(** The callback slots: the last value handed to the setter. *)
Definition onUpdate_step (v : val) (s : step) : val :=
  match s with
  | host_calls (op_setOnUpdate callback) => callback
  | _ => v
  end.

Definition onUpdate_after (steps : list step) (v : val) : val :=
  foldl onUpdate_step v steps.

Definition onBestMove_step (v : val) (s : step) : val :=
  match s with
  | host_calls (op_setOnBestMove callback) => callback
  | _ => v
  end.

Definition onBestMove_after (steps : list step) (v : val) : val :=
  foldl onBestMove_step v steps.

(** *** Which calls a computation makes *)

Definition is_host_call (c : call) : bool :=
  match c with
  | call_host _ _ => true
  | _ => false
  end.

(** [emits Q m]: the log only grows under [m], and by calls in [Q]. *)
Definition emits {A} (Q : call → Prop) (m : M A) : Prop :=
  ∀ w, ∃ l, log (m w).1 = log w ++ l ∧ Forall (λ x, Q (what x)) l.

(** *** Who looks at the flag *)

(** Two worlds that differ at most in [searching] (and in the snapshots
    their logs hold). *)
Definition agree (w1 w2 : World) : Prop :=
  set_searching true (self w1) = set_searching true (self w2) ∧
  what <$> log w1 = what <$> log w2.

(** [m] does the same from both: same calls, same answer. *)
Definition flag_blind {A} (m : M A) : Prop :=
  ∀ w1 w2, agree w1 w2 → agree (m w1).1 (m w2).1 ∧ (m w1).2 = (m w2).2.

Definition reads_flag (o : op) : bool :=
  match o with
  | op_stop | op_isSearching => true
  | _ => false
  end.

End Adapter.

Arguments PikafishWASM E : clear implicits.
Arguments observed E : clear implicits.
Arguments World E : clear implicits.
Arguments M E A : clear implicits.

(** ** A small engine to run the adapter against *)

(** A small engine that records what it is asked: an option store keyed by
    name, the position, the limits of the last [go], and counters.  It can be
    told to fail: in its constructor, or in every later call. *)
Record Toy : Type := mkToy {
  toy_options : gmap string string;
  toy_fen : string;
  toy_moves : list string;
  toy_last_go : option Search.LimitsType;
  toy_stops : nat;
  toy_threads_resized : nat
}.

Definition toy_initial : Toy :=
  mkToy (<["Hash" := "16"]> (<["Threads" := "1"]> ∅)) "startpos" [] None 0 0.

Definition toy_do {R} (fault : option exn) (f : Toy → Toy) (r : R) (e : Toy)
  : Toy * outcome R :=
  match fault with
  | Some x => (e, throws x)
  | None => (f e, returns r)
  end.

Definition toy_API (ctor_fault call_fault : option exn) : Engine.API Toy := {|
  Engine.new _ :=
    match ctor_fault with
    | Some x => throws x
    | None => returns toy_initial
    end;
  Engine.set_on_bestmove := toy_do None id tt;
  Engine.set_on_update_full := toy_do None id tt;
  Engine.load_networks := toy_do call_fault id tt;
  Engine.verify_networks := toy_do call_fault id tt;
  Engine.set_position fen moves :=
    toy_do call_fault
      (λ e, mkToy (toy_options e) fen moves (toy_last_go e) (toy_stops e)
                  (toy_threads_resized e)) tt;
  Engine.go limits :=
    toy_do call_fault
      (λ e, mkToy (toy_options e) (toy_fen e) (toy_moves e) (Some limits)
                  (toy_stops e) (toy_threads_resized e)) tt;
  Engine.stop :=
    toy_do call_fault
      (λ e, mkToy (toy_options e) (toy_fen e) (toy_moves e) (toy_last_go e)
                  (S (toy_stops e)) (toy_threads_resized e)) tt;
  Engine.wait_for_search_finished := toy_do call_fault id tt;
  Engine.fen e := toy_do call_fault id (toy_fen e) e;
  Engine.visualize e := toy_do call_fault id (toy_fen e) e;
  Engine.options_count e name :=
    match toy_options e !! name with
    | Some _ => 1%nat
    | None => 0%nat
    end;
  Engine.options_assign name value :=
    toy_do call_fault
      (λ e, mkToy (<[name := value]> (toy_options e)) (toy_fen e) (toy_moves e)
                  (toy_last_go e) (toy_stops e) (toy_threads_resized e)) tt;
  Engine.get_hashfull := toy_do call_fault id 0;
  Engine.search_clear := toy_do call_fault id tt;
  Engine.set_tt_size mb :=
    toy_do call_fault
      (λ e, mkToy (<["Hash" := pretty mb]> (toy_options e)) (toy_fen e)
                  (toy_moves e) (toy_last_go e) (toy_stops e)
                  (toy_threads_resized e)) tt;
  Engine.resize_threads :=
    toy_do call_fault
      (λ e, mkToy (toy_options e) (toy_fen e) (toy_moves e) (toy_last_go e)
                  (toy_stops e) (S (toy_threads_resized e))) tt;
  Engine.perft _ _ := toy_do call_fault id 1;
  Engine.LimitsType_init := Search.mkLimitsType 0 0 0 0 false
|}.

(** The engine that works, the one whose constructor throws, and the one
    whose calls throw. *)
Definition toy_sound : Engine.API Toy := toy_API None None.
Definition toy_failing : Engine.API Toy :=
  toy_API None (Some (std_exception "engine call")).

(** The object the constructor's initialisers describe, before its body
    runs. *)
Definition toy_self : PikafishWASM Toy :=
  mkPikafishWASM toy_initial "" "" false val_null val_null.

(** The adapter as its constructor leaves it, over a given engine. *)
Definition constructed (api : Engine.API Toy) : World Toy :=
  match PikafishWASM_ctor (api := api) with
  | returns w => w
  | throws _ => mkWorld toy_self []
  end.

(** A fresh adapter over the working engine, and the same after
    [goInfinite()]. *)
Definition toy_world : World Toy := constructed toy_sound.
Definition toy_searching : World Toy := (goInfinite (api := toy_sound) toy_world).1.

Definition toy_info : InfoFull :=
  mkInfoFull 12 19 350 9007199254740993 41 7 5000000 0.

(** ** Properties *)

(** *** Conversion of counters to double *)

Lemma fexp_double (e : Z) : fexp 53 1024 e = Z.max (e - 53) (-1074).
Proof. reflexivity. Qed.

Lemma digits2_pos_bounds (p : positive) :
  2 ^ (Zpos (digits2_pos p) - 1) <= Zpos p < 2 ^ Zpos (digits2_pos p).
Proof.
  induction p as [p IH|p IH|]; simpl digits2_pos.
  - rewrite Pos2Z.inj_succ.
    replace (Z.succ (Zpos (digits2_pos p)) - 1) with (Z.succ (Zpos (digits2_pos p) - 1)) by lia.
    rewrite !Z.pow_succ_r by lia. lia.
  - rewrite Pos2Z.inj_succ.
    replace (Z.succ (Zpos (digits2_pos p)) - 1) with (Z.succ (Zpos (digits2_pos p) - 1)) by lia.
    rewrite !Z.pow_succ_r by lia. lia.
  - simpl. lia.
Qed.

Lemma iter_xO_value (k p : positive) :
  Zpos (Pos.iter xO p k) = Zpos p * 2 ^ Zpos k.
Proof.
  induction k as [|k IH] using Pos.peano_ind.
  - simpl. lia.
  - rewrite Pos.iter_succ, Pos2Z.inj_succ, Z.pow_succ_r by lia.
    rewrite Pos2Z.inj_xO, IH. lia.
Qed.

Lemma iter_xO_digits (k p : positive) :
  digits2_pos (Pos.iter xO p k) = (digits2_pos p + k)%positive.
Proof.
  induction k as [|k IH] using Pos.peano_ind.
  - simpl. lia.
  - rewrite Pos.iter_succ. simpl. rewrite IH. lia.
Qed.

Lemma binary_round_aux_aligned (m : positive) (e : Z) :
  Zpos (digits2_pos m) = 53 → -1074 <= e <= 971 →
  binary_round_aux 53 1024 false (Zpos m) e loc_Exact = S754_finite false m e.
Proof.
  intros Hd He. unfold binary_round_aux, shr_fexp.
  assert (Hf : fexp 53 1024 (Zdigits2 (Zpos m) + e) - e = 0).
  { rewrite fexp_double. unfold Zdigits2. rewrite Hd. lia. }
  rewrite Hf. cbn [shr shr_record_of_loc shr_m loc_of_shr_record round_nearest_even].
  rewrite Hf. cbn [shr shr_record_of_loc shr_m].
  destruct (e <=? 1024 - 53) eqn:Hle; [reflexivity|]. lia.
Qed.

(** X12. Below 2^53 the conversion to double loses nothing: the double that
    reaches the host stands for the very counter. *)
Theorem static_cast_double_exact (n : Z) :
  0 <= n < 2 ^ 53 → double_to_Z (static_cast_double n) = Some n.
Proof.
  intros [Hlo Hhi]. destruct n as [|p|p]; [reflexivity| |lia].
  unfold static_cast_double, binary_normalize, binary_round.
  pose proof (digits2_pos_bounds p) as [Hdl Hdu].
  assert (Hd : Zpos (digits2_pos p) <= 53).
  { destruct (Z_le_gt_dec (Zpos (digits2_pos p)) 53) as [|Hgt]; [assumption|].
    assert (2 ^ 53 <= 2 ^ (Zpos (digits2_pos p) - 1)) by (apply Z.pow_le_mono_r; lia).
    lia. }
  assert (Hf : fexp 53 1024 (Zpos (digits2_pos p) + 0) = Zpos (digits2_pos p) - 53).
  { rewrite fexp_double. lia. }
  rewrite Hf. unfold shl_align.
  destruct (Zpos (digits2_pos p) - 53 - 0) as [|k|k] eqn:Hk; [|lia|].
  - rewrite binary_round_aux_aligned by lia.
    unfold double_to_Z. rewrite Z.leb_refl, Z.pow_0_r. f_equal. lia.
  - assert (Hdk : Zpos (digits2_pos p) - 53 = - Zpos k) by lia.
    rewrite binary_round_aux_aligned.
    + unfold double_to_Z. rewrite Hdk.
      destruct (0 <=? - Zpos k) eqn:Hz; [lia|].
      rewrite Z.opp_involutive, iter_xO_value.
      rewrite Z.mod_mul by lia. rewrite Z.eqb_refl.
      rewrite Z.div_mul by lia. reflexivity.
    + rewrite iter_xO_digits. lia.
    + lia.
Qed.


Lemma digits2_pos_unique (p : positive) (d : Z) :
  2 ^ (d - 1) <= Zpos p < 2 ^ d → Zpos (digits2_pos p) = d.
Proof.
  intros [Hlo Hhi]. pose proof (digits2_pos_bounds p) as [Hl Hu].
  assert (0 < d).
  { destruct (Z_lt_le_dec 0 d) as [|Hd]; [assumption|].
    destruct (Z.eq_dec d 0) as [->|]; [simpl in Hhi; lia|].
    rewrite Z.pow_neg_r in Hhi by lia. lia. }
  destruct (Z_lt_le_dec (Zpos (digits2_pos p)) d) as [Hlt|Hge].
  - assert (2 ^ Zpos (digits2_pos p) <= 2 ^ (d - 1)) by (apply Z.pow_le_mono_r; lia). lia.
  - destruct (Z_lt_le_dec d (Zpos (digits2_pos p))) as [Hlt|Hle]; [|lia].
    assert (2 ^ d <= 2 ^ (Zpos (digits2_pos p) - 1)) by (apply Z.pow_le_mono_r; lia). lia.
Qed.

Lemma shr_1_m (mrs : shr_record) :
  0 <= shr_m mrs → shr_m (shr_1 mrs) = shr_m mrs / 2.
Proof.
  destruct mrs as [m r s]; simpl. intros Hm.
  destruct m as [|[p|p|]|p]; simpl; try lia.
  - reflexivity.
  - rewrite (Pos2Z.inj_xI p). apply Z.div_unique with 1; lia.
  - rewrite (Pos2Z.inj_xO p). apply Z.div_unique with 0; lia.
  - reflexivity.
Qed.

Lemma iter_shr_1_m (k : positive) (mrs : shr_record) :
  0 <= shr_m mrs →
  shr_m (SpecFloat.iter_pos shr_1 k mrs) = shr_m mrs / 2 ^ Zpos k.
Proof.
  revert mrs. induction k as [k IH|k IH|]; intros mrs Hm; simpl SpecFloat.iter_pos;
    try (assert (Hp : 0 < 2 ^ Zpos k) by (apply Z.pow_pos_nonneg; lia)).
  - assert (H1 : 0 <= shr_m (shr_1 mrs)).
    { rewrite shr_1_m by assumption. apply Z.div_pos; lia. }
    assert (H2 : 0 <= shr_m (SpecFloat.iter_pos shr_1 k (shr_1 mrs))).
    { rewrite IH by assumption. apply Z.div_pos; lia. }
    rewrite IH, IH, shr_1_m by assumption.
    rewrite !Z.div_div by nia. f_equal.
    rewrite (Pos2Z.inj_xI k).
    replace (2 * Zpos k + 1) with (1 + Zpos k + Zpos k) by lia.
    rewrite !Z.pow_add_r by lia. change (2 ^ 1) with 2. ring.
  - assert (H2 : 0 <= shr_m (SpecFloat.iter_pos shr_1 k mrs)).
    { rewrite IH by assumption. apply Z.div_pos; lia. }
    rewrite IH, IH by assumption.
    rewrite !Z.div_div by nia. f_equal.
    rewrite (Pos2Z.inj_xO k).
    replace (2 * Zpos k) with (Zpos k + Zpos k) by lia.
    rewrite Z.pow_add_r by lia. reflexivity.
  - rewrite shr_1_m by assumption. reflexivity.
Qed.

Lemma round_nearest_even_cases (m : Z) (l : location) :
  round_nearest_even m l = m ∨ round_nearest_even m l = m + 1.
Proof.
  destruct l as [|[]]; simpl; auto. destruct (Z.even m); auto.
Qed.

(** The second normalisation: a mantissa of 53 digits stays, 2^53 is halved
    and the exponent goes up by one. *)
Lemma renormalise (m k : Z) :
  2 ^ 52 <= m <= 2 ^ 53 → 0 < k <= 11 →
  ∃ m' e', shr_fexp 53 1024 m k loc_Exact
             = ({| shr_m := Zpos m'; shr_r := false; shr_s := false |}, e') ∧
           Zpos m' * 2 ^ e' = m * 2 ^ k ∧ k <= e' <= k + 1.
Proof.
  intros [Hlo Hhi] Hk.
  destruct m as [|p|p]; try (simpl in Hlo; lia).
  destruct (Z.eq_dec (Zpos p) (2 ^ 53)) as [Heq|Hne].
  - assert (Hp : p = 9007199254740992%positive) by (apply Pos2Z.inj; exact Heq).
    subst p. unfold shr_fexp.
    assert (Hf : fexp 53 1024 (Zdigits2 9007199254740992 + k) - k = 1).
    { rewrite fexp_double. change (Zdigits2 9007199254740992) with 54. lia. }
    rewrite Hf. eexists _, _. split; [reflexivity|].
    split; [|lia]. rewrite Z.pow_add_r by lia. lia.
  - unfold shr_fexp.
    assert (Hd : Zdigits2 (Zpos p) = 53).
    { apply digits2_pos_unique. simpl. lia. }
    assert (Hf : fexp 53 1024 (Zdigits2 (Zpos p) + k) - k = 0).
    { rewrite fexp_double, Hd. lia. }
    rewrite Hf. eexists _, _. split; [reflexivity|]. lia.
Qed.

(** X13. From 2^53 up to the end of the 64-bit range the conversion to double
    always gives a finite number that stands for an integer, never an
    infinity or a NaN, and that integer is within 2048 of the counter. *)
Theorem static_cast_double_close (n : Z) :
  2 ^ 53 <= n < 2 ^ 64 →
  ∃ v, double_to_Z (static_cast_double n) = Some v ∧ Z.abs (v - n) <= 2048.
Proof.
  intros [Hlo Hhi]. destruct n as [|p|p]; try (simpl in Hlo; lia).
  unfold static_cast_double, binary_normalize, binary_round.
  pose proof (digits2_pos_bounds p) as [Hdl Hdu].
  set (d := Zpos (digits2_pos p)) in *.
  assert (Hd : 54 <= d <= 64).
  { split.
    - destruct (Z_lt_le_dec d 54) as [Hlt|]; [|assumption].
      assert (2 ^ d <= 2 ^ 53) by (apply Z.pow_le_mono_r; lia). lia.
    - destruct (Z_lt_le_dec 64 d) as [Hlt|]; [|assumption].
      assert (2 ^ 64 <= 2 ^ (d - 1)) by (apply Z.pow_le_mono_r; lia). lia. }
  assert (Hf : fexp 53 1024 (d + 0) = d - 53) by (rewrite fexp_double; lia).
  rewrite Hf. unfold shl_align.
  destruct (d - 53 - 0) as [|k|k] eqn:Hk; try lia.
  unfold binary_round_aux.
  unfold shr_fexp at 1. unfold Zdigits2. fold d. rewrite Hf.
  replace (d - 53 - 0) with (Zpos k) by lia. unfold shr at 1.
  set (mrs := SpecFloat.iter_pos shr_1 k (shr_record_of_loc (Zpos p) loc_Exact)).
  assert (Hq : shr_m mrs = Zpos p / 2 ^ Zpos k).
  { subst mrs. rewrite iter_shr_1_m; simpl; [reflexivity|lia]. }
  assert (Hpk : 0 < 2 ^ Zpos k) by (apply Z.pow_pos_nonneg; lia).
  assert (Hsplit : Zpos p = 2 ^ Zpos k * (Zpos p / 2 ^ Zpos k) + Zpos p mod 2 ^ Zpos k)
    by (apply Z.div_mod; lia).
  pose proof (Z.mod_pos_bound (Zpos p) (2 ^ Zpos k) Hpk) as Hr.
  assert (Hpow : 2 ^ d = 2 ^ 53 * 2 ^ Zpos k).
  { replace d with (53 + Zpos k) by lia. apply Z.pow_add_r; lia. }
  assert (Hpow' : 2 ^ (d - 1) = 2 ^ 52 * 2 ^ Zpos k).
  { replace (d - 1) with (52 + Zpos k) by lia. apply Z.pow_add_r; lia. }
  assert (Hqb : 2 ^ 52 <= Zpos p / 2 ^ Zpos k < 2 ^ 53).
  { split.
    - apply Z.div_le_lower_bound; lia.
    - apply Z.div_lt_upper_bound; lia. }
  assert (Hk11 : 2 ^ Zpos k <= 2048).
  { change 2048 with (2 ^ 11). apply Z.pow_le_mono_r; lia. }
  set (m1 := round_nearest_even (shr_m mrs) (loc_of_shr_record mrs)).
  assert (Hm1 : m1 = Zpos p / 2 ^ Zpos k ∨ m1 = Zpos p / 2 ^ Zpos k + 1).
  { subst m1. rewrite <- Hq. apply round_nearest_even_cases. }
  destruct (renormalise m1 (0 + Zpos k)) as (m' & e' & Hsh & Hval & He'); [lia|lia|].
  rewrite Hsh. cbn [shr_m].
  destruct (e' <=? 1024 - 53) eqn:Hle; [|lia].
  unfold double_to_Z.
  destruct (0 <=? e') eqn:Hz; [|lia].
  eexists. split; [reflexivity|].
  rewrite Hval. replace (0 + Zpos k) with (Zpos k) by lia.
  destruct Hm1 as [-> | ->]; nia.
Qed.

(** *** What the host reads back

    The two facts about the conversion that the record of a progress event
    rests on, for either sign and for the whole 64-bit range. *)







Section Properties.
Context {E : Type} {api : Engine.API E}.
Implicit Types (w : World E) (o : PikafishWASM E) (P : PikafishWASM E → Prop).

(** *** Equations of the primitives *)

Lemma call_engine_eq {R} (c : call) (f : E → E * outcome R) w :
  call_engine c f w =
  (mkWorld (set_engine (f (engine (self w))).1 (self w))
           (log w ++ [mkObserved c (self w)]),
   (f (engine (self w))).2).
Proof.
  unfold call_engine, M_bind, emit, engine_act; simpl.
  destruct (f (engine (self w))) as [e' r]; reflexivity.
Qed.

Lemma M_bind_eq {A B} (m : M E A) (k : A → M E B) w :
  M_bind m k w =
  match (m w).2 with
  | returns a => k a (m w).1
  | throws e => ((m w).1, throws e)
  end.
Proof. unfold M_bind. destruct (m w) as [w' [a|e]]; reflexivity. Qed.

(** *** What computations keep *)

Lemma keeps_ret {A} P (a : A) : keeps P (M_ret a).
Proof. intros w HP; exact HP. Qed.

Lemma keeps_bind {A B} P (m : M E A) (k : A → M E B) :
  keeps P m → (∀ a, keeps P (k a)) → keeps P (M_bind m k).
Proof.
  intros Hm Hk w HP. rewrite M_bind_eq.
  specialize (Hm w HP). destruct ((m w).2) as [a|e]; simpl; auto.
  apply Hk; exact Hm.
Qed.

Lemma keeps_read {A} P (f : PikafishWASM E → A) : keeps P (read f).
Proof. intros w HP; exact HP. Qed.

Lemma keeps_emit P (c : call) : keeps P (emit c).
Proof. intros w HP; exact HP. Qed.

Lemma keeps_assign P (f : PikafishWASM E → PikafishWASM E) :
  (∀ o, P o → P (f o)) → keeps P (assign f).
Proof. intros Hf w HP; simpl; auto. Qed.

Lemma keeps_call_engine {R} P (c : call) (f : E → E * outcome R) :
  engine_blind P → keeps P (call_engine c f).
Proof. intros HB w HP. rewrite call_engine_eq; simpl. apply HB, HP. Qed.

Lemma keeps_call_val P (callee : val) (args : list val) :
  keeps P (call_val callee args).
Proof. apply keeps_emit. Qed.

Lemma keeps_try_catch {A} P (body handler : M E A) :
  keeps P body → keeps P handler → keeps P (try_catch_std_exception body handler).
Proof.
  intros Hb Hh w HP. unfold try_catch_std_exception.
  specialize (Hb w HP). destruct (body w) as [w' [a|[s|s]]]; simpl in *; auto.
Qed.

Lemma keeps_if {A} P (b : bool) (m1 m2 : M E A) :
  keeps P m1 → keeps P m2 → keeps P (if b then m1 else m2).
Proof. destruct b; auto. Qed.

Lemma keeps_as_ret {A} P (f : A → ret) (m : M E A) :
  keeps P m → keeps P (as_ret f m).
Proof. intros Hm. apply keeps_bind; [exact Hm | intros a; apply keeps_ret]. Qed.

Ltac keeps_step :=
  first
    [ apply keeps_call_engine | apply keeps_call_val | apply keeps_as_ret
    | apply keeps_try_catch | apply keeps_if | apply keeps_bind
    | apply keeps_ret | apply keeps_read | apply keeps_emit
    | apply keeps_assign ].
Ltac keeps_tac := repeat (intros; keeps_step).

Lemma logged_app {A} (m : M E A) w (l : list (observed E)) :
  log (m w).1 = log w ++ l → logged m w = l.
Proof. intros Hl. unfold logged. rewrite Hl. apply drop_app_length. Qed.

(** *** The terminal trampoline *)

Lemma on_bestmove_eq (best ponder : string) w :
  on_bestmove best ponder w =
  (mkWorld (after_bestmove best ponder (self w))
     (log w ++
      if isNull (onBestMoveCallback (self w)) then []
      else [mkObserved
              (call_host (onBestMoveCallback (self w))
                         [val_string best; val_string ponder])
              (after_bestmove best ponder (self w))]),
   returns tt).
Proof.
  unfold on_bestmove, M_bind, assign, read, call_val, emit; simpl.
  destruct (isNull (onBestMoveCallback (self w))); simpl.
  - rewrite app_nil_r. reflexivity.
  - reflexivity.
Qed.

(** C1. The terminal trampoline stores [best] and [ponder], clears
    [searching], and only then calls the host's onBestMove callback, if the
    slot is not null: the one call it logs is made on an object that already
    holds the result, and once the trampoline is done the three getters
    return [best], [ponder] and [false]. *)
Theorem bestmove_stored_before_callback (best ponder : string) w :
  let w' := (on_bestmove best ponder w).1 in
  let cb := onBestMoveCallback (self w) in
  logged (on_bestmove best ponder) w =
    (if isNull cb then []
     else [mkObserved (call_host cb [val_string best; val_string ponder])
                      (self w')]) ∧
  Forall (λ x, lastBestMove (seen x) = best ∧ lastPonder (seen x) = ponder ∧
               searching (seen x) = false)
         (logged (on_bestmove best ponder) w) ∧
  getBestMove w' = (w', returns best) ∧
  getPonderMove w' = (w', returns ponder) ∧
  isSearching w' = (w', returns false).
Proof.
  intros w' cb.
  assert (Hlog : logged (on_bestmove best ponder) w =
    (if isNull cb then []
     else [mkObserved (call_host cb [val_string best; val_string ponder])
                      (self w')])).
  { apply logged_app. subst w' cb. rewrite on_bestmove_eq; simpl.
    reflexivity. }
  split; [exact Hlog|].
  split.
  - rewrite Hlog. destruct (isNull cb); [constructor|].
    constructor; [|constructor]. subst w'.
    rewrite on_bestmove_eq; simpl. auto.
  - subst w'. rewrite on_bestmove_eq. unfold getBestMove, getPonderMove,
      isSearching, read; simpl. auto.
Qed.


(** *** Starting a search *)

Lemma go_starts_search (limits : Search.LimitsType) :
  starts_search
    (M_bind (assign (set_searching true))
            (λ _, call_engine (call_go limits) (Engine.go limits)))
    limits.
Proof. intros w armed. rewrite M_bind_eq; simpl. rewrite call_engine_eq. reflexivity. Qed.

(** C2. In goDepth, goTime, goNodes and goInfinite the one call into the
    engine is [go], and it is made on an object whose [searching] is
    already true, whatever the flag was before. *)
Theorem go_sets_searching_before_engine_go
    (depth timeMs nodes : Z) w :
  Forall (λ m : M E unit,
            ∃ limits,
              logged m w = [mkObserved (call_go limits)
                                       (set_searching true (self w))] ∧
              Forall (λ x, searching (seen x) = true) (logged m w) ∧
              searching (self (m w).1) = true)
         [goDepth depth; goTime timeMs; goNodes nodes; goInfinite].
Proof.
  assert (Hgo : ∀ (m : M E unit) limits, starts_search m limits →
    ∃ limits,
      logged m w = [mkObserved (call_go limits) (set_searching true (self w))] ∧
      Forall (λ x, searching (seen x) = true) (logged m w) ∧
      searching (self (m w).1) = true).
  { intros m limits Hm. exists limits.
    assert (Hl : logged m w =
      [mkObserved (call_go limits) (set_searching true (self w))]).
    { apply logged_app. rewrite (Hm w); reflexivity. }
    rewrite Hl. split; [reflexivity|]. split.
    - constructor; [reflexivity | constructor].
    - rewrite (Hm w); reflexivity. }
  repeat constructor; eapply Hgo; apply go_starts_search.
Qed.

(** C3. Each go* entry point hands the engine a default-constructed limits
    value with one setting changed ([depth], both [time] entries, [nodes],
    [infinite]); the object it leaves differs from the one it found only in
    [searching] and in the engine's own state. *)
Theorem go_builds_fresh_limits (depth timeMs nodes : Z) :
  let init := Engine.LimitsType_init in
  starts_search (goDepth depth)
    (Search.mkLimitsType (Search.time_WHITE init) (Search.time_BLACK init)
       depth (Search.nodes init) (Search.infinite init)) ∧
  starts_search (goTime timeMs)
    (Search.mkLimitsType timeMs timeMs
       (Search.depth init) (Search.nodes init) (Search.infinite init)) ∧
  starts_search (goNodes nodes)
    (Search.mkLimitsType (Search.time_WHITE init) (Search.time_BLACK init)
       (Search.depth init) nodes (Search.infinite init)) ∧
  starts_search goInfinite
    (Search.mkLimitsType (Search.time_WHITE init) (Search.time_BLACK init)
       (Search.depth init) (Search.nodes init) true).
Proof.
  intros init. repeat split; apply go_starts_search.
Qed.

(** *** The update trampoline *)


Lemma on_update_full_keeps P (info : InfoFull) : keeps P (on_update_full info).
Proof. unfold on_update_full. keeps_tac. Qed.

(** *** Options *)

(** C5. setOption assigns through the engine's option store exactly when the
    store counts an option of that name; for a name it does not count the
    call changes nothing, logs nothing and returns. *)
Theorem setOption_assigns_iff_advertised (name value : string) w :
  let e := engine (self w) in
  let advertised := negb (Engine.options_count e name =? 0)%nat in
  logged (setOption name value) w =
    (if advertised
     then [mkObserved (call_options_assign name value) (self w)]
     else []) ∧
  if advertised
  then self (setOption name value w).1 =
         set_engine (Engine.options_assign name value e).1 (self w) ∧
       (setOption name value w).2 = (Engine.options_assign name value e).2
  else setOption name value w = (w, returns tt).
Proof.
  intros e advertised.
  assert (Heq : setOption name value w =
    if advertised
    then call_engine (call_options_assign name value)
                     (Engine.options_assign name value) w
    else (w, returns tt)).
  { unfold setOption, M_bind, read; simpl. fold e. fold advertised.
    destruct advertised; reflexivity. }
  split.
  - apply logged_app. rewrite Heq. destruct advertised.
    + rewrite call_engine_eq; reflexivity.
    + simpl. rewrite app_nil_r; reflexivity.
  - rewrite Heq. destruct advertised; [|reflexivity].
    rewrite call_engine_eq; simpl. split; reflexivity.
Qed.

(** *** Stopping *)

(** C8. stop asks the engine to stop exactly when [searching] is set, and
    asks it for nothing else (it never waits); it leaves [searching], the
    cached moves and both callback slots as they were.  With [searching]
    clear it changes nothing at all, however often it is called. *)
Theorem stop_forwards_only_when_searching w :
  let w' := (stop w).1 in
  (searching (self w') = searching (self w) ∧
   lastBestMove (self w') = lastBestMove (self w) ∧
   lastPonder (self w') = lastPonder (self w) ∧
   onUpdateCallback (self w') = onUpdateCallback (self w) ∧
   onBestMoveCallback (self w') = onBestMoveCallback (self w)) ∧
  logged stop w =
    (if searching (self w) then [mkObserved call_stop (self w)] else []) ∧
  if searching (self w)
  then self w' = set_engine (Engine.stop (engine (self w))).1 (self w) ∧
       (stop w).2 = (Engine.stop (engine (self w))).2
  else stop w = (w, returns tt) ∧
       ∀ n : nat, Nat.iter n (λ v, (stop v).1) w = w.
Proof.
  intros w'.
  assert (Heq : stop w =
    if searching (self w) then call_engine call_stop Engine.stop w
    else (w, returns tt)).
  { unfold stop, M_bind, read; simpl. destruct (searching (self w)); reflexivity. }
  split; [|split].
  - subst w'. rewrite Heq.
    destruct (searching (self w)) eqn:Hs;
      [rewrite call_engine_eq|]; simpl; rewrite ?Hs; auto.
  - apply logged_app. rewrite Heq. destruct (searching (self w)).
    + rewrite call_engine_eq; reflexivity.
    + simpl. rewrite app_nil_r; reflexivity.
  - subst w'. rewrite Heq. destruct (searching (self w)) eqn:Hs.
    + rewrite call_engine_eq; simpl. split; reflexivity.
    + split; [reflexivity|]. intros n. induction n as [|n IH]; simpl.
      * reflexivity.
      * rewrite IH. unfold stop, M_bind, read; simpl. rewrite Hs. reflexivity.
Qed.

(** *** Who writes the flag and the cached moves *)

Lemma searching_blind : engine_blind (λ o : PikafishWASM E, searching o = true).
Proof. intros e o Ho; exact Ho. Qed.

Lemma run_op_keeps_searching (o : op) :
  keeps (λ x : PikafishWASM E, searching x = true) (run_op o).
Proof.
  destruct o; simpl;
    unfold init, setPosition, setPositionWithMoves, goDepth, goTime, goNodes,
      goInfinite, stop, waitForSearchFinished, getBestMove, getPonderMove,
      isSearching, getFen, visualize, setThreads, setOption, getHashFull,
      clearHash, setHashSize, setOnUpdate, setOnBestMove, perft;
    keeps_tac; try apply searching_blind; try reflexivity; auto.
Qed.

Lemma run_op_keeps_moves (b p : string) (o : op) :
  keeps (λ x : PikafishWASM E, lastBestMove x = b ∧ lastPonder x = p) (run_op o).
Proof.
  destruct o; simpl;
    unfold init, setPosition, setPositionWithMoves, goDepth, goTime, goNodes,
      goInfinite, stop, waitForSearchFinished, getBestMove, getPonderMove,
      isSearching, getFen, visualize, setThreads, setOption, getHashFull,
      clearHash, setHashSize, setOnUpdate, setOnBestMove, perft;
    keeps_tac; try (intros e x Hx; exact Hx); auto.
Qed.

Lemma as_ret_world {A} (f : A → ret) (m : M E A) w :
  (as_ret f m w).1 = (m w).1.
Proof.
  unfold as_ret. rewrite M_bind_eq. destruct ((m w).2); reflexivity.
Qed.

Lemma run_keeps P (steps : list step) :
  (∀ s, s ∈ steps → ∀ w, P (self w) → P (self (run_step s w))) →
  ∀ w, P (self w) → P (self (run steps w)).
Proof.
  unfold run. induction steps as [|s steps IH]; intros Hs w HP; simpl.
  - exact HP.
  - apply IH.
    + intros s' Hin. apply Hs. right; exact Hin.
    + apply Hs; [left|exact HP].
Qed.

Lemma step_keeps_searching (s : step) w :
  is_bestmove s = false →
  searching (self w) = true → searching (self (run_step s w)) = true.
Proof.
  destruct s as [o|info|b p]; simpl; intros Hb Hs.
  - exact (run_op_keeps_searching o w Hs).
  - exact (on_update_full_keeps (λ x, searching x = true) info w Hs).
  - discriminate.
Qed.

Lemma step_keeps_moves (b p : string) (s : step) w :
  is_bestmove s = false →
  lastBestMove (self w) = b ∧ lastPonder (self w) = p →
  lastBestMove (self (run_step s w)) = b ∧ lastPonder (self (run_step s w)) = p.
Proof.
  destruct s as [o|info|b' p']; simpl; intros Hb Hs.
  - exact (run_op_keeps_moves b p o w Hs).
  - exact (on_update_full_keeps
             (λ x, lastBestMove x = b ∧ lastPonder x = p) info w Hs).
  - discriminate.
Qed.

Lemma run_op_keeps_onBestMove (cb : val) (o : op) :
  registers_onBestMove (host_calls o) = false →
  keeps (λ x : PikafishWASM E, onBestMoveCallback x = cb) (run_op o).
Proof.
  destruct o; simpl; try discriminate; intros _;
    unfold init, setPosition, setPositionWithMoves, goDepth, goTime, goNodes,
      goInfinite, stop, waitForSearchFinished, getBestMove, getPonderMove,
      isSearching, getFen, visualize, setThreads, setOption, getHashFull,
      clearHash, setHashSize, setOnUpdate, perft;
    keeps_tac; try (intros e x Hx; exact Hx); auto.
Qed.

(** C9. Only the terminal trampoline clears [searching]: a step that finds
    the flag set and leaves it clear is a delivered result.  So with the flag
    set, after stop or waitForSearchFinished and any further steps that are
    not a delivered result, isSearching still answers true. *)
Theorem searching_cleared_only_by_bestmove (steps : list step) w :
  searching (self w) = true →
  Forall (λ s, is_bestmove s = false) steps →
  (∀ s, searching (self (run_step s w)) = false → is_bestmove s = true) ∧
  searching (self (stop w).1) = true ∧
  searching (self (waitForSearchFinished w).1) = true ∧
  (isSearching (run steps (stop w).1)).2 = returns true ∧
  (isSearching (run steps (waitForSearchFinished w).1)).2 = returns true.
Proof.
  intros Hs Hsteps.
  assert (Hrun : ∀ v, searching (self v) = true →
                      searching (self (run steps v)) = true).
  { apply (run_keeps (λ x, searching x = true)).
    intros s Hin v Hv. apply step_keeps_searching; [|exact Hv].
    rewrite Forall_forall in Hsteps. apply Hsteps, Hin. }
  assert (Hstop : searching (self (stop w).1) = true).
  { rewrite <- (as_ret_world (λ _, ret_void)).
    exact (run_op_keeps_searching op_stop w Hs). }
  assert (Hwait : searching (self (waitForSearchFinished w).1) = true).
  { rewrite <- (as_ret_world (λ _, ret_void)).
    exact (run_op_keeps_searching op_waitForSearchFinished w Hs). }
  split; [|split; [exact Hstop | split; [exact Hwait|]]].
  - intros s Hclear. destruct (is_bestmove s) eqn:Hb; [reflexivity|].
    rewrite (step_keeps_searching s w Hb Hs) in Hclear. discriminate.
  - unfold isSearching, read; simpl. split; f_equal; apply Hrun; assumption.
Qed.

(** *** Construction *)

Lemma ctor_fields (w0 : World E) :
  PikafishWASM_ctor = returns w0 →
  lastBestMove (self w0) = "" ∧ lastPonder (self w0) = "" ∧
  searching (self w0) = false ∧
  onUpdateCallback (self w0) = val_null ∧
  onBestMoveCallback (self w0) = val_null.
Proof.
  unfold PikafishWASM_ctor. destruct (Engine.new None) as [eng|e]; [|discriminate].
  rewrite M_bind_eq, call_engine_eq; simpl.
  destruct (Engine.set_on_bestmove eng) as [e1 [[]|x]]; simpl; [|discriminate].
  rewrite call_engine_eq; simpl.
  destruct (Engine.set_on_update_full e1) as [e2 [[]|x]]; simpl; [|discriminate].
  intros [= <-]; simpl. auto.
Qed.

(** C7. On a constructed adapter, as long as no result has been delivered,
    getBestMove and getPonderMove return the empty string; and on any
    adapter they return the cached strings and leave everything as it is. *)
Theorem moves_empty_before_first_result (w0 : World E) (steps : list step) :
  PikafishWASM_ctor = returns w0 →
  Forall (λ s, is_bestmove s = false) steps →
  let w := run steps w0 in
  getBestMove w = (w, returns "") ∧
  getPonderMove w = (w, returns "") ∧
  ∀ v : World E,
    getBestMove v = (v, returns (lastBestMove (self v))) ∧
    getPonderMove v = (v, returns (lastPonder (self v))).
Proof.
  intros Hctor Hsteps w.
  destruct (ctor_fields w0 Hctor) as (Hb & Hp & _).
  assert (Hw : lastBestMove (self w) = "" ∧ lastPonder (self w) = "").
  { subst w. apply (run_keeps (λ x, lastBestMove x = "" ∧ lastPonder x = "")).
    - intros s Hin v Hv. apply step_keeps_moves; [|exact Hv].
      rewrite Forall_forall in Hsteps. apply Hsteps, Hin.
    - auto. }
  destruct Hw as [Hwb Hwp].
  unfold getBestMove, getPonderMove, read. rewrite Hwb, Hwp. auto.
Qed.

(** A host that never calls setOnBestMove leaves the slot as the constructor
    made it: null. *)
Lemma onBestMove_null_until_registered (w0 : World E) (steps : list step) :
  PikafishWASM_ctor = returns w0 →
  Forall (λ s, registers_onBestMove s = false) steps →
  isNull (onBestMoveCallback (self (run steps w0))) = true.
Proof.
  intros Hctor Hsteps.
  destruct (ctor_fields w0 Hctor) as (_ & _ & _ & _ & Hcb).
  enough (Hn : onBestMoveCallback (self (run steps w0)) = val_null)
    by (rewrite Hn; reflexivity).
  apply (run_keeps (λ x, onBestMoveCallback x = val_null)); [|exact Hcb].
  intros s Hin v Hv. rewrite Forall_forall in Hsteps. specialize (Hsteps s Hin).
  destruct s as [o|info|b p]; simpl.
  - exact (run_op_keeps_onBestMove val_null o Hsteps v Hv).
  - exact (on_update_full_keeps (λ x, onBestMoveCallback x = val_null) info v Hv).
  - rewrite on_bestmove_eq; simpl. exact Hv.
Qed.

(** *** Exceptions *)



(** *** Data members and histories *)

Ltac unfold_ops :=
  unfold init, setPosition, setPositionWithMoves, goDepth, goTime, goNodes,
    goInfinite, stop, waitForSearchFinished, getBestMove, getPonderMove,
    isSearching, getFen, visualize, setThreads, setOption, getHashFull,
    clearHash, setHashSize, setOnUpdate, setOnBestMove, perft.

Lemma run_cons (s : step) (steps : list step) w :
  run (s :: steps) w = run steps (run_step s w).
Proof. reflexivity. Qed.

Lemma run_tracks {A} (f : PikafishWASM E → A) (g : A → step → A) :
  (∀ s w, f (self (run_step s w)) = g (f (self w)) s) →
  ∀ steps w, f (self (run steps w)) = foldl g (f (self w)) steps.
Proof.
  intros Hstep steps. induction steps as [|s steps IH]; intros w.
  - reflexivity.
  - rewrite run_cons, IH, Hstep. reflexivity.
Qed.

Lemma keeps_eq {A B} (f : PikafishWASM E → B) (m : M E A) w :
  (∀ v, keeps (λ x, f x = v) m) → f (self (m w).1) = f (self w).
Proof. intros Hk. exact (Hk (f (self w)) w eq_refl). Qed.

Lemma on_update_full_eq (info : InfoFull) w :
  on_update_full info w =
  (mkWorld (self w)
     (log w ++
      if isNull (onUpdateCallback (self w)) then []
      else [mkObserved
              (call_host (onUpdateCallback (self w)) [make_updateInfo info])
              (self w)]),
   returns tt).
Proof.
  unfold on_update_full, M_bind, read, call_val, emit; simpl.
  destruct (isNull (onUpdateCallback (self w))); simpl; [|reflexivity].
  rewrite app_nil_r. destruct w; reflexivity.
Qed.

Lemma run_op_go_sets_flag (o : op) w :
  is_go o = true → searching (self (run_op o w).1) = true.
Proof.
  destruct o; try discriminate; intros _; cbn [run_op];
    rewrite as_ret_world; unfold goDepth, goTime, goNodes, goInfinite;
    rewrite (go_starts_search _ w); reflexivity.
Qed.

Lemma run_op_keeps_flag (b : bool) (o : op) :
  is_go o = false →
  keeps (λ x : PikafishWASM E, searching x = b) (run_op o).
Proof.
  destruct o; try discriminate; intros _; cbn [run_op]; unfold_ops;
    keeps_tac; try (intros e x Hx; exact Hx); auto.
Qed.

Lemma step_flag (s : step) w :
  searching (self (run_step s w)) = flag_step (searching (self w)) s.
Proof.
  destruct s as [o|info|best ponder]; cbn [run_step flag_step].
  - destruct (is_go o) eqn:Hgo.
    + apply run_op_go_sets_flag, Hgo.
    + apply keeps_eq. intros v. apply run_op_keeps_flag, Hgo.
  - rewrite on_update_full_eq; reflexivity.
  - rewrite on_bestmove_eq; reflexivity.
Qed.

(** X1. After any history [searching] holds what the last go* or delivered
    result made it: true if a go* came last, false if a result did, and its
    old value if there was neither.  A go* counts even when the engine's
    [go] threw; stop, waitForSearchFinished and every other operation
    leave the flag alone. *)
Theorem searching_follows_history (steps : list step) w :
  searching (self (run steps w)) = flag_after steps (searching (self w)) ∧
  isSearching (run steps w) =
    (run steps w, returns (flag_after steps (searching (self w)))).
Proof.
  assert (Hf : searching (self (run steps w))
               = flag_after steps (searching (self w))).
  { apply (run_tracks searching flag_step). apply step_flag. }
  split; [exact Hf|]. unfold isSearching, read. rewrite Hf. reflexivity.
Qed.

Lemma step_moves (s : step) w :
  (lastBestMove (self (run_step s w)), lastPonder (self (run_step s w))) =
  moves_step (lastBestMove (self w), lastPonder (self w)) s.
Proof.
  destruct s as [o|info|best ponder]; cbn [run_step moves_step].
  - destruct (run_op_keeps_moves (lastBestMove (self w)) (lastPonder (self w))
                o w (conj eq_refl eq_refl)) as [-> ->].
    reflexivity.
  - rewrite on_update_full_eq; reflexivity.
  - rewrite on_bestmove_eq; reflexivity.
Qed.

(** X2. After any history the cached moves are those of the last delivered
    result, or the old ones if no result was delivered: a new go*, a stop or
    any other operation leaves them, so while the next search runs the
    getters still answer with the previous result. *)
Theorem moves_follow_history (steps : list step) w :
  let m := moves_after steps (lastBestMove (self w), lastPonder (self w)) in
  getBestMove (run steps w) = (run steps w, returns m.1) ∧
  getPonderMove (run steps w) = (run steps w, returns m.2).
Proof.
  intros m.
  assert (Hm : (lastBestMove (self (run steps w)),
                lastPonder (self (run steps w))) = m).
  { apply (run_tracks (λ x, (lastBestMove x, lastPonder x)) moves_step).
    apply step_moves. }
  unfold getBestMove, getPonderMove, read.
  rewrite <- Hm. split; reflexivity.
Qed.

Lemma step_onUpdate (s : step) w :
  onUpdateCallback (self (run_step s w)) =
  onUpdate_step (onUpdateCallback (self w)) s.
Proof.
  destruct s as [o|info|best ponder]; cbn [run_step].
  - destruct o; cbn [onUpdate_step run_op];
      try (apply keeps_eq; intros v; unfold_ops; keeps_tac;
           try (intros e x Hx; exact Hx); auto).
    rewrite as_ret_world. reflexivity.
  - rewrite on_update_full_eq; reflexivity.
  - rewrite on_bestmove_eq; reflexivity.
Qed.

Lemma step_onBestMove (s : step) w :
  onBestMoveCallback (self (run_step s w)) =
  onBestMove_step (onBestMoveCallback (self w)) s.
Proof.
  destruct s as [o|info|best ponder]; cbn [run_step].
  - destruct o; cbn [onBestMove_step run_op];
      try (apply keeps_eq; intros v; unfold_ops; keeps_tac;
           try (intros e x Hx; exact Hx); auto).
    rewrite as_ret_world. reflexivity.
  - rewrite on_update_full_eq; reflexivity.
  - rewrite on_bestmove_eq; reflexivity.
Qed.

(** X3. A progress event goes to the value last handed to setOnUpdate (or to
    what the slot held before, if setOnUpdate was not called) and to nothing
    else; with null there, the event is dropped.  No other operation and no
    trampoline changes the slot. *)
Theorem update_reaches_last_registered (steps : list step) (info : InfoFull) w :
  let w1 := run steps w in
  let cb := onUpdate_after steps (onUpdateCallback (self w)) in
  onUpdateCallback (self w1) = cb ∧
  logged (on_update_full info) w1 =
    (if isNull cb then []
     else [mkObserved (call_host cb [make_updateInfo info]) (self w1)]).
Proof.
  intros w1 cb.
  assert (Hcb : onUpdateCallback (self w1) = cb).
  { apply (run_tracks onUpdateCallback onUpdate_step). apply step_onUpdate. }
  split; [exact Hcb|].
  apply logged_app. rewrite on_update_full_eq; simpl. rewrite Hcb. reflexivity.
Qed.

(** X4. A delivered result goes to the value last handed to setOnBestMove (or
    to what the slot held before, if setOnBestMove was not called) and to
    nothing else; with null there, nothing is called.  No other operation
    and no trampoline changes the slot. *)
Theorem bestmove_reaches_last_registered
    (steps : list step) (best ponder : string) w :
  let w1 := run steps w in
  let cb := onBestMove_after steps (onBestMoveCallback (self w)) in
  onBestMoveCallback (self w1) = cb ∧
  what <$> logged (on_bestmove best ponder) w1 =
    (if isNull cb then []
     else [call_host cb [val_string best; val_string ponder]]).
Proof.
  intros w1 cb.
  assert (Hcb : onBestMoveCallback (self w1) = cb).
  { apply (run_tracks onBestMoveCallback onBestMove_step). apply step_onBestMove. }
  split; [exact Hcb|].
  rewrite (logged_app (on_bestmove best ponder) w1
             (if isNull cb then []
              else [mkObserved
                      (call_host cb [val_string best; val_string ponder])
                      (after_bestmove best ponder (self w1))])).
  - destruct (isNull cb); reflexivity.
  - rewrite on_bestmove_eq; simpl. rewrite Hcb. reflexivity.
Qed.

(** *** Which calls are made *)

Lemma emits_ret {A} (Q : call → Prop) (a : A) : emits Q (M_ret (E:=E) a).
Proof. intros w. exists []. simpl. rewrite app_nil_r. auto. Qed.

Lemma emits_read {A} (Q : call → Prop) (f : PikafishWASM E → A) :
  emits Q (read f).
Proof. intros w. exists []. simpl. rewrite app_nil_r. auto. Qed.

Lemma emits_assign (Q : call → Prop) (f : PikafishWASM E → PikafishWASM E) :
  emits Q (assign f).
Proof. intros w. exists []. simpl. rewrite app_nil_r. auto. Qed.

Lemma emits_emit (Q : call → Prop) (c : call) : Q c → emits Q (emit (E:=E) c).
Proof. intros Hc w. eexists. split; [reflexivity|]. repeat constructor. exact Hc. Qed.

Lemma emits_call_engine {R} (Q : call → Prop) (c : call) (f : E → E * outcome R) :
  Q c → emits Q (call_engine c f).
Proof.
  intros Hc w. rewrite call_engine_eq. eexists. split; [reflexivity|].
  repeat constructor. exact Hc.
Qed.

Lemma emits_bind {A B} (Q : call → Prop) (m : M E A) (k : A → M E B) :
  emits Q m → (∀ a, emits Q (k a)) → emits Q (M_bind m k).
Proof.
  intros Hm Hk w. rewrite M_bind_eq.
  destruct (Hm w) as (l1 & Hl1 & HQ1).
  destruct ((m w).2) as [a|x].
  - destruct (Hk a (m w).1) as (l2 & Hl2 & HQ2).
    exists (l1 ++ l2). split.
    + rewrite Hl2, Hl1, app_assoc. reflexivity.
    + apply Forall_app; auto.
  - exists l1. auto.
Qed.

Lemma emits_try_catch {A} (Q : call → Prop) (body handler : M E A) :
  emits Q body → emits Q handler → emits Q (try_catch_std_exception body handler).
Proof.
  intros Hb Hh w. unfold try_catch_std_exception.
  destruct (Hb w) as (l1 & Hl1 & HQ1).
  destruct (body w) as [w' [a|[x|x]]]; simpl in *; eauto.
  destruct (Hh w') as (l2 & Hl2 & HQ2).
  exists (l1 ++ l2). split.
  - rewrite Hl2, Hl1, app_assoc. reflexivity.
  - apply Forall_app; auto.
Qed.

Lemma emits_if {A} (Q : call → Prop) (b : bool) (m1 m2 : M E A) :
  emits Q m1 → emits Q m2 → emits Q (if b then m1 else m2).
Proof. destruct b; auto. Qed.

Lemma emits_as_ret {A} (Q : call → Prop) (f : A → ret) (m : M E A) :
  emits Q m → emits Q (as_ret f m).
Proof. intros Hm. apply emits_bind; [exact Hm | intros a; apply emits_ret]. Qed.

Lemma emits_logged {A} (Q : call → Prop) (m : M E A) w :
  emits Q m → Forall (λ x, Q (what x)) (logged m w).
Proof.
  intros Hm. destruct (Hm w) as (l & Hl & HQ).
  rewrite (logged_app m w l Hl). exact HQ.
Qed.

Ltac emits_step :=
  first
    [ apply emits_call_engine | apply emits_as_ret | apply emits_try_catch
    | apply emits_if | apply emits_bind | apply emits_ret | apply emits_read
    | apply emits_emit | apply emits_assign ].
Ltac emits_tac := repeat (intros; emits_step).

(** X5. No member function calls a host callback: whatever a host operation
    adds to the log is a call into the engine.  The callbacks are reached
    only from the two trampolines. *)
Theorem host_ops_never_call_back (o : op) w :
  Forall (λ x, is_host_call (what x) = false) (logged (run_op o) w).
Proof.
  apply (emits_logged (λ c, is_host_call c = false)).
  destruct o; cbn [run_op]; unfold_ops; emits_tac; reflexivity.
Qed.

(** X6. The trampolines never call into the engine: whatever they add to the
    log is a call of a host value, and there is at most one per event. *)
Theorem trampolines_never_call_engine
    (best ponder : string) (info : InfoFull) w :
  Forall (λ x, is_host_call (what x) = true)
         (logged (on_bestmove best ponder) w) ∧
  Forall (λ x, is_host_call (what x) = true)
         (logged (on_update_full info) w) ∧
  (length (logged (on_bestmove best ponder) w) ≤ 1)%nat ∧
  (length (logged (on_update_full info) w) ≤ 1)%nat.
Proof.
  rewrite (logged_app (on_bestmove best ponder) w _
             (f_equal log (f_equal fst (on_bestmove_eq best ponder w)))).
  rewrite (logged_app (on_update_full info) w _
             (f_equal log (f_equal fst (on_update_full_eq info w)))).
  destruct (isNull (onBestMoveCallback (self w)));
    destruct (isNull (onUpdateCallback (self w)));
    simpl; repeat split; repeat constructor.
Qed.

(** *** Who looks at the flag *)

Lemma agree_engine w1 w2 : agree w1 w2 → engine (self w1) = engine (self w2).
Proof. intros [Hs _]. exact (f_equal engine Hs). Qed.

Lemma blind_ret {A} (a : A) : flag_blind (M_ret (E:=E) a).
Proof. intros w1 w2 Hw. split; [exact Hw | reflexivity]. Qed.

Lemma blind_bind {A B} (m : M E A) (k : A → M E B) :
  flag_blind m → (∀ a, flag_blind (k a)) → flag_blind (M_bind m k).
Proof.
  intros Hm Hk w1 w2 Hw. rewrite !M_bind_eq.
  destruct (Hm w1 w2 Hw) as [Hw' Hr]. rewrite Hr.
  destruct ((m w2).2) as [a|x]; simpl.
  - apply Hk, Hw'.
  - split; [exact Hw' | reflexivity].
Qed.

Lemma blind_read {A} (f : PikafishWASM E → A) :
  (∀ o, f (set_searching true o) = f o) → flag_blind (read f).
Proof.
  intros Hf w1 w2 Hw. split; [exact Hw|]. unfold read; simpl.
  rewrite <- (Hf (self w1)), <- (Hf (self w2)).
  destruct Hw as [-> _]. reflexivity.
Qed.

Lemma blind_assign (f : PikafishWASM E → PikafishWASM E) :
  (∀ o, set_searching true (f o) = f (set_searching true o)) →
  flag_blind (assign f).
Proof.
  intros Hf w1 w2 [Hs Hl]. split; [|reflexivity]. split; simpl; [|exact Hl].
  rewrite !Hf, Hs. reflexivity.
Qed.

Lemma blind_emit (c : call) : flag_blind (emit (E:=E) c).
Proof.
  intros w1 w2 [Hs Hl]. split; [|reflexivity]. split; simpl; [exact Hs|].
  rewrite !fmap_app, Hl. reflexivity.
Qed.

Lemma blind_call_engine {R} (c : call) (f : E → E * outcome R) :
  flag_blind (call_engine c f).
Proof.
  intros w1 w2 Hw. rewrite !call_engine_eq; simpl.
  rewrite (agree_engine w1 w2 Hw). destruct Hw as [Hs Hl].
  split; [|reflexivity]. split; simpl.
  - exact (f_equal (set_engine (f (engine (self w2))).1) Hs).
  - rewrite !fmap_app, Hl. reflexivity.
Qed.

Lemma blind_try_catch {A} (body handler : M E A) :
  flag_blind body → flag_blind handler →
  flag_blind (try_catch_std_exception body handler).
Proof.
  intros Hb Hh w1 w2 Hw. unfold try_catch_std_exception.
  destruct (Hb w1 w2 Hw) as [Hw' Hr].
  destruct (body w1) as [v1 r1], (body w2) as [v2 r2]; simpl in *. subst r2.
  destruct r1 as [a|[x|x]]; auto.
Qed.

Lemma blind_if {A} (b : bool) (m1 m2 : M E A) :
  flag_blind m1 → flag_blind m2 → flag_blind (if b then m1 else m2).
Proof. destruct b; auto. Qed.

Lemma blind_as_ret {A} (f : A → ret) (m : M E A) :
  flag_blind m → flag_blind (as_ret f m).
Proof. intros Hm. apply blind_bind; [exact Hm | intros a; apply blind_ret]. Qed.

Ltac blind_step :=
  first
    [ apply blind_call_engine | apply blind_as_ret | apply blind_try_catch
    | apply blind_if | apply blind_bind | apply blind_ret | apply blind_read
    | apply blind_emit | apply blind_assign ].
Ltac blind_tac := repeat (intros; blind_step).

Lemma run_op_flag_blind (o : op) : reads_flag o = false → flag_blind (run_op o).
Proof.
  destruct o; try discriminate; intros _; cbn [run_op]; unfold_ops;
    blind_tac; reflexivity.
Qed.

(** X7. Only stop and isSearching look at [searching].  Every other member
    function, started with the flag set or clear, makes the same calls into
    the engine with the same arguments, leaves the engine in the same state
    and ends the same way: nothing is held back because a search is
    running. *)
Theorem only_stop_and_isSearching_read_flag (o : op) (b : bool) w :
  reads_flag o = false →
  let w' := mkWorld (set_searching b (self w)) (log w) in
  (run_op o w').2 = (run_op o w).2 ∧
  what <$> logged (run_op o) w' = what <$> logged (run_op o) w ∧
  engine (self (run_op o w').1) = engine (self (run_op o w).1).
Proof.
  intros Ho w'.
  assert (Hw : agree w' w) by (split; reflexivity).
  destruct (run_op_flag_blind o Ho w' w Hw) as [Ha Hr].
  split; [exact Hr|]. split.
  - unfold logged. rewrite !fmap_drop. destruct Ha as [_ ->]. reflexivity.
  - apply agree_engine, Ha.
Qed.

(** *** init, setThreads, destructor, constructor *)

(** X8. init asks the engine to verify its networks only after the load has
    returned.  When the load throws, verify is never called and the engine
    stays as the failed load left it; init then returns normally if what
    was thrown is a std::exception, so the host cannot tell a loaded and
    verified network from a failed load. *)
Theorem init_verifies_only_after_load w :
  let l := Engine.load_networks (engine (self w)) in
  let v := Engine.verify_networks l.1 in
  what <$> logged init w =
    call_load_networks ::
    match l.2 with
    | returns _ => [call_verify_networks]
    | throws _ => []
    end ∧
  engine (self (init w).1) =
    match l.2 with
    | returns _ => v.1
    | throws _ => l.1
    end ∧
  (init w).2 =
    match l.2 with
    | returns _ =>
        match v.2 with
        | throws (std_exception _) => returns tt
        | r => r
        end
    | throws (std_exception _) => returns tt
    | throws x => throws x
    end.
Proof.
  intros l v. subst v l.
  unfold logged, init, try_catch_std_exception.
  rewrite M_bind_eq, call_engine_eq. simpl.
  destruct (Engine.load_networks (engine (self w))) as [e1 [[]|[x|x]]]; simpl.
  - rewrite call_engine_eq; simpl.
    destruct (Engine.verify_networks e1) as [e2 [[]|[x|x]]]; simpl;
      rewrite <- app_assoc, drop_app_length; repeat split.
  - rewrite drop_app_length; repeat split.
  - rewrite drop_app_length; repeat split.
Qed.

(** X9. setThreads asks the engine to rebuild its worker pool after the
    option write, and also when there was no write because the engine has no
    option named Threads; only an exception from the assignment stops it
    short of the rebuild.  The value written is the decimal form of the
    argument. *)
Theorem setThreads_resizes_unless_assignment_throws (numThreads : Z) w :
  let e := engine (self w) in
  let value := pretty numThreads in
  let a := Engine.options_assign "Threads" value e in
  what <$> logged (setThreads numThreads) w =
    (if negb (Engine.options_count e "Threads" =? 0)%nat
     then call_options_assign "Threads" value ::
          match a.2 with
          | returns _ => [call_resize_threads]
          | throws _ => []
          end
     else [call_resize_threads]) ∧
  (setThreads numThreads w).2 =
    (if negb (Engine.options_count e "Threads" =? 0)%nat
     then match a.2 with
          | returns _ => (Engine.resize_threads a.1).2
          | throws x => throws x
          end
     else (Engine.resize_threads e).2).
Proof.
  intros e value a. subst a value e.
  unfold logged, setThreads, setOption.
  rewrite !M_bind_eq. cbn [read fst snd].
  destruct (negb (Engine.options_count (engine (self w)) "Threads" =? 0)%nat).
  - rewrite call_engine_eq; cbn [fst snd].
    destruct (Engine.options_assign "Threads" (pretty numThreads)
                (engine (self w))) as [e1 [[]|x]]; cbn [fst snd].
    + rewrite call_engine_eq; cbn [fst snd self log engine set_engine].
      rewrite <- app_assoc, drop_app_length. split; reflexivity.
    + cbn [self log]. rewrite drop_app_length. split; reflexivity.
  - cbn [M_ret fst snd]. rewrite call_engine_eq; cbn [fst snd self log].
    rewrite drop_app_length. split; reflexivity.
Qed.




End Properties.

(** ** The adapter over the toy engines *)

#[local] Existing Instance toy_sound.

Lemma toy_ctor : PikafishWASM_ctor (api := toy_sound) = returns toy_world.
Proof. reflexivity. Qed.


Lemma searching_cleared_only_by_bestmove_witness :
  let steps := [host_calls op_stop; engine_update toy_info;
                host_calls (op_setOption "Hash" "32");
                host_calls op_waitForSearchFinished] in
  (∀ s, searching (self (run_step (api := toy_sound) s toy_searching)) = false →
        is_bestmove s = true) ∧
  searching (self (stop (api := toy_sound) toy_searching).1) = true ∧
  searching (self (waitForSearchFinished (api := toy_sound) toy_searching).1) = true ∧
  (isSearching (run (api := toy_sound) steps
                    (stop (api := toy_sound) toy_searching).1)).2 = returns true ∧
  (isSearching (run (api := toy_sound) steps
                    (waitForSearchFinished (api := toy_sound) toy_searching).1)).2
    = returns true.
Proof.
  apply (searching_cleared_only_by_bestmove (api := toy_sound)
           [host_calls op_stop; engine_update toy_info;
            host_calls (op_setOption "Hash" "32");
            host_calls op_waitForSearchFinished]
           toy_searching).
  - reflexivity.
  - repeat constructor.
Defined.

Lemma moves_empty_before_first_result_witness :
  let w := run (api := toy_sound)
               [host_calls (op_setOnBestMove (val_function 1));
                host_calls (op_goDepth 5); engine_update toy_info;
                host_calls op_stop] toy_world in
  getBestMove w = (w, returns "") ∧
  getPonderMove w = (w, returns "") ∧
  ∀ v : World Toy,
    getBestMove v = (v, returns (lastBestMove (self v))) ∧
    getPonderMove v = (v, returns (lastPonder (self v))).
Proof.
  apply (moves_empty_before_first_result (api := toy_sound) toy_world
           [host_calls (op_setOnBestMove (val_function 1));
            host_calls (op_goDepth 5); engine_update toy_info;
            host_calls op_stop]).
  - reflexivity.
  - repeat constructor.
Defined.


(** init over an engine whose load throws a [std::exception]: the handler
    runs, verify is never reached, init returns. *)
Example init_swallows_load_failure :
  (init (api := toy_failing) (constructed toy_failing)).2 = returns tt ∧
  what <$> logged (init (api := toy_failing)) (constructed toy_failing)
    = [call_load_networks].
Proof. split; reflexivity. Qed.

(** One session: register a callback, search, set a known and an unknown
    option, stop, receive the result, stop again. *)
Example session_log :
  let w := run (api := toy_sound)
             [host_calls (op_setOnBestMove (val_function 1));
              host_calls (op_goDepth 5);
              host_calls (op_setOption "Hash" "32");
              host_calls (op_setOption "Contempt" "0");
              host_calls op_stop;
              engine_bestmove "h2e2" "h9g7";
              host_calls op_stop] toy_world in
  what <$> drop 2 (log w) =
    [call_go (Search.mkLimitsType 0 0 5 0 false);
     call_options_assign "Hash" "32";
     call_stop;
     call_host (val_function 1) [val_string "h2e2"; val_string "h9g7"]] ∧
  searching ∘ seen <$> drop 2 (log w) = [true; true; true; false] ∧
  toy_options (engine (self w)) !! "Hash" = Some "32" ∧
  toy_options (engine (self w)) !! "Contempt" = None.
Proof. repeat split; reflexivity. Qed.

(** setThreads writes the decimal form of its argument. *)
Example setThreads_log :
  what <$> logged (setThreads (api := toy_sound) 4) toy_world
    = [call_options_assign "Threads" "4"; call_resize_threads].
Proof. reflexivity. Qed.

(** The conversion to double is exact on small counters and rounds on large
    ones: 2^53 + 1 becomes 2^53, and 2^64 - 1 becomes 2^64. *)
Example static_cast_double_rounds :
  static_cast_double 1000000 = S754_finite false 8589934592000000 (-33) ∧
  static_cast_double 9007199254740993 = static_cast_double 9007199254740992 ∧
  static_cast_double 18446744073709551615 = S754_finite false 4503599627370496 12.
Proof. repeat split; reflexivity. Qed.

Lemma only_stop_and_isSearching_read_flag_witness :
  let w' := mkWorld (set_searching true (self toy_world)) (log toy_world) in
  (run_op (op_setThreads 4) w').2 = (run_op (op_setThreads 4) toy_world).2 ∧
  what <$> logged (run_op (op_setThreads 4)) w'
    = what <$> logged (run_op (op_setThreads 4)) toy_world ∧
  engine (self (run_op (op_setThreads 4) w').1)
    = engine (self (run_op (op_setThreads 4) toy_world).1).
Proof.
  apply (only_stop_and_isSearching_read_flag (api := toy_sound)
           (op_setThreads 4) true toy_world).
  reflexivity.
Defined.


Lemma static_cast_double_exact_witness :
  double_to_Z (static_cast_double 5000000) = Some 5000000.
Proof.
  apply (static_cast_double_exact 5000000). split; [discriminate | reflexivity].
Defined.

Lemma static_cast_double_close_witness :
  ∃ v, double_to_Z (static_cast_double 9007199254740993) = Some v ∧
       Z.abs (v - 9007199254740993) <= 2048.
Proof.
  apply (static_cast_double_close 9007199254740993).
  split; [discriminate | reflexivity].
Defined.

(** What the host reads in the record of one progress event: the node count
    2^53 + 1 arrives as 2^53, every other property as it was sent. *)
Example update_record_read_back :
  (λ key, field_as_Z key (make_updateInfo toy_info)) <$>
    ["depth"; "seldepth"; "time"; "nodes"; "score"; "hashfull"; "nps"; "tbhits"]
  = [Some 12; Some 19; Some 350; Some 9007199254740992; Some 41; Some 7;
     Some 5000000; Some 0].
Proof. reflexivity. Qed.
